(** * ReluConstraint: the ReLU piecewise-linear constraint of Marabou

    A shallow embedding of [src/reluplex/ReluConstraint.cpp] and the
    properties of its specification.

    Conventions of the embedding.
    - [double] is the kernel's binary64 [float]; [unsigned] variable ids are
      [N] (the code never does arithmetic on them).
    - [Map<unsigned, double>] is a [gmap N float]; [List<...>] is a [list].
    - A method is a computation in the monad [M]: it reads and writes the
      object together with the record of the calls it made on its tableau,
      and either returns or stops with an [Error].
    - [ASSERT( c )] is checked: a false condition stops the computation with
      [AssertionViolation]; an exception thrown while the condition is
      evaluated propagates unchanged.
    - The collaborators whose code is not among the sources (FloatUtils,
      ITableau, FreshVariables) are taken as parameters: the three FloatUtils
      predicates form the class [FloatUtils], and every general theorem holds
      for all of its instances; the tableau is a passive recorder of the
      calls made on it (it does not call back into the constraint); the id
      returned by [FreshVariables::getNextVariable] is an argument of the
      constructor, and so is the value of [_tableau], which the constructor
      leaves uninitialised.

    The definitions come first: the data, the monad, the constructor and the
    methods, then the vocabulary of the properties and a sample FloatUtils.
    The lemmas follow; the theorems named C1 to C10 are the properties of
    the specification and those named X1 to X15 further properties read off
    the code; the scenario sections run them on concrete worlds. *)

From Stdlib Require Import Floats.
From stdpp Require Import base option list gmap.

(** ** Values and collaborators *)

Abbreviation double := float (only parsing).
Abbreviation unsigned := N (only parsing).

(** The three static predicates of FloatUtils the constraint uses. *)
Class FloatUtils := {
  isPositive : double → bool;
  isNegative : double → bool;
  areEqual : double → double → bool;
}.

(** A tableau is known by its address only. *)
Definition ITableau := N.
Bind Scope N_scope with ITableau.

(** ** Tightening, Equation, PiecewiseLinearCaseSplit, Fix *)

Inductive BoundType := LB | UB.

Record Tightening := mkTightening {
  tightening_variable : unsigned;
  tightening_value : double;
  tightening_type : BoundType;
}.

Record Addend := mkAddend {
  addend_coefficient : double;
  addend_variable : unsigned;
}.

(** A default-constructed equation has no addend; its scalar and auxiliary
    variable are unset until [setScalar] and [markAuxiliaryVariable]. *)
Record Equation := mkEquation {
  equation_addends : list Addend;
  equation_scalar : option double;
  equation_auxVariable : option unsigned;
}.

Definition Equation_new : Equation := mkEquation [] None None.

Definition addAddend (coefficient : double) (variable : unsigned) (e : Equation) : Equation :=
  mkEquation (equation_addends e ++ [mkAddend coefficient variable])
             (equation_scalar e) (equation_auxVariable e).

Definition markAuxiliaryVariable (variable : unsigned) (e : Equation) : Equation :=
  mkEquation (equation_addends e) (equation_scalar e) (Some variable).

Definition setScalar (scalar : double) (e : Equation) : Equation :=
  mkEquation (equation_addends e) (Some scalar) (equation_auxVariable e).

Record PiecewiseLinearCaseSplit := mkSplit {
  split_bounds : list Tightening;
  split_equations : list Equation;
}.

Definition PiecewiseLinearCaseSplit_new : PiecewiseLinearCaseSplit := mkSplit [] [].

Definition storeBoundTightening (t : Tightening) (s : PiecewiseLinearCaseSplit)
  : PiecewiseLinearCaseSplit :=
  mkSplit (split_bounds s ++ [t]) (split_equations s).

Definition addEquation (e : Equation) (s : PiecewiseLinearCaseSplit)
  : PiecewiseLinearCaseSplit :=
  mkSplit (split_bounds s) (split_equations s ++ [e]).

Record Fix := mkFix {
  fix_variable : unsigned;
  fix_value : double;
}.

(** ** The object and the world it runs in *)

Record ReluConstraint := mkReluConstraint {
  _b : unsigned;
  _f : unsigned;
  _splits : list PiecewiseLinearCaseSplit;
  _validSplits : list PiecewiseLinearCaseSplit;
  _assignment : gmap N float;
  _lowerBounds : gmap N float;
  _upperBounds : gmap N float;
  _tableau : option ITableau;
}.

(** The calls an ITableau receives from the constraint. *)
Inductive TableauCall :=
| registerToWatchVariable (variable : unsigned)
| unregisterToWatchVariable (variable : unsigned)
| applySplit (split : PiecewiseLinearCaseSplit).

Record World := mkWorld {
  this : ReluConstraint;
  tableauCalls : list (ITableau * TableauCall);
}.

Inductive ReluplexErrorCode := PARTICIPATING_VARIABLES_ABSENT.

Inductive Error :=
| ReluplexError (code : ReluplexErrorCode)
| AssertionViolation
| KeyNotInMap
| IndexOutOfRange
| NullDereference.

Inductive Result (A : Type) :=
| Returns (a : A) (w : World)
| Raises (e : Error).
Arguments Returns {A} a w.
Arguments Raises {A} e.

Definition M (A : Type) : Type := World → Result A.

Definition ret {A} (a : A) : M A := fun w => Returns a w.

Definition bind {A B} (m : M A) (k : A → M B) : M B :=
  fun w => match m w with
           | Returns a w' => k a w'
           | Raises e => Raises e
           end.

Definition raise {A} (e : Error) : M A := fun _ => Raises e.

Declare Scope relu_scope.
Delimit Scope relu_scope with relu.
Notation "x <- m ;; k" := (bind m (fun x => k))
  (at level 100, m at next level, right associativity) : relu_scope.
Notation "m ;; k" := (bind m (fun _ => k))
  (at level 100, right associativity) : relu_scope.
Open Scope relu_scope.

Definition ASSERT (condition : bool) : M unit :=
  if condition then ret tt else raise AssertionViolation.

Definition getThis : M ReluConstraint := fun w => Returns (this w) w.

Definition setThis (c : ReluConstraint) : M unit :=
  fun w => Returns tt (mkWorld c (tableauCalls w)).

(** [_tableau->call]: the call is recorded; a null [_tableau] cannot be
    dereferenced (the code asserts it is set before every such call). *)
Definition callTableau (tableau : option ITableau) (call : TableauCall) : M unit :=
  fun w => match tableau with
           | Some t => Returns tt (mkWorld (this w) (tableauCalls w ++ [(t, call)]))
           | None => Raises NullDereference
           end.

(** Field assignments. *)
Definition set_validSplits (l : list PiecewiseLinearCaseSplit) (c : ReluConstraint) :=
  mkReluConstraint (_b c) (_f c) (_splits c) l
                   (_assignment c) (_lowerBounds c) (_upperBounds c) (_tableau c).
Definition set_assignment (m : gmap N float) (c : ReluConstraint) :=
  mkReluConstraint (_b c) (_f c) (_splits c) (_validSplits c)
                   m (_lowerBounds c) (_upperBounds c) (_tableau c).
Definition set_lowerBounds (m : gmap N float) (c : ReluConstraint) :=
  mkReluConstraint (_b c) (_f c) (_splits c) (_validSplits c)
                   (_assignment c) m (_upperBounds c) (_tableau c).
Definition set_upperBounds (m : gmap N float) (c : ReluConstraint) :=
  mkReluConstraint (_b c) (_f c) (_splits c) (_validSplits c)
                   (_assignment c) (_lowerBounds c) m (_tableau c).
Definition set_tableau (t : option ITableau) (c : ReluConstraint) :=
  mkReluConstraint (_b c) (_f c) (_splits c) (_validSplits c)
                   (_assignment c) (_lowerBounds c) (_upperBounds c) t.

Definition modifyThis (f : ReluConstraint → ReluConstraint) : M unit :=
  c <- getThis ;; setThis (f c).

(** [Map::exists] and [Map::get]. *)
Definition Map_exists (m : gmap N float) (key : unsigned) : bool :=
  bool_decide (is_Some (m !! key)).

Definition Map_get (m : gmap N float) (key : unsigned) : M double :=
  match m !! key with
  | Some value => ret value
  | None => raise KeyNotInMap
  end.

(** [_splits[i]]. *)
Definition splitsAt (i : nat) : M PiecewiseLinearCaseSplit :=
  c <- getThis ;;
  match _splits c !! i with
  | Some s => ret s
  | None => raise IndexOutOfRange
  end.

(** ** Construction *)

Section Construction.
Variables (b f auxVariable : unsigned).

(** The constructor does not initialise [_tableau]: [tableau0] is the value
    the member holds when the constructor returns, whatever it is. *)
Variable (tableau0 : option ITableau).

Definition auxUpperBound : Tightening := mkTightening auxVariable 0 UB.
Definition auxLowerBound : Tightening := mkTightening auxVariable 0 LB.

(** Active phase: b >= 0, b - f = 0. *)
Definition activeEquation : Equation :=
  setScalar 0
    (markAuxiliaryVariable auxVariable
       (addAddend 1 auxVariable
          (addAddend (-1) f
             (addAddend 1 b Equation_new)))).

Definition activePhase : PiecewiseLinearCaseSplit :=
  storeBoundTightening auxLowerBound
    (storeBoundTightening auxUpperBound
       (addEquation activeEquation
          (storeBoundTightening (mkTightening b 0 LB)
             PiecewiseLinearCaseSplit_new))).

(** Inactive phase: b <= 0, f = 0. *)
Definition inactiveEquation : Equation :=
  setScalar 0
    (markAuxiliaryVariable auxVariable
       (addAddend 1 auxVariable
          (addAddend 1 f Equation_new))).

Definition inactivePhase : PiecewiseLinearCaseSplit :=
  storeBoundTightening auxLowerBound
    (storeBoundTightening auxUpperBound
       (addEquation inactiveEquation
          (storeBoundTightening (mkTightening b 0 UB)
             PiecewiseLinearCaseSplit_new))).

(** [ReluConstraint::ReluConstraint( b, f )], where [auxVariable] is the id
    [FreshVariables::getNextVariable()] returned. Initially, either phase is
    possible and nothing is cached; [_tableau] is left as it was,
    [tableau0]. *)
Definition ReluConstraint_new : ReluConstraint :=
  let splits := [] ++ [activePhase] ++ [inactivePhase] in
  let validSplits0 := [] ++ option_list (splits !! 0%nat) in
  let validSplits1 := validSplits0 ++ option_list (splits !! 1%nat) in
  mkReluConstraint b f splits validSplits1 ∅ ∅ ∅ tableau0.

Definition World_new : World := mkWorld ReluConstraint_new [].
End Construction.

(** ** The methods *)

(** The calls the tableau side makes on the constraint. *)
Inductive Call :=
| RegisterAsWatcher (tableau : ITableau)
| UnregisterAsWatcher (tableau : ITableau)
| NotifyVariableValue (variable : unsigned) (value : double)
| NotifyLowerBound (variable : unsigned) (bound : double)
| NotifyUpperBound (variable : unsigned) (bound : double).

Section Methods.
Context {FU : FloatUtils}.

Definition registerAsWatcher (tableau : ITableau) : M unit :=
  modifyThis (set_tableau (Some tableau)) ;;
  c <- getThis ;;
  callTableau (Some tableau) (registerToWatchVariable (_b c)) ;;
  callTableau (Some tableau) (registerToWatchVariable (_f c)).

Definition unregisterAsWatcher (tableau : ITableau) : M unit :=
  c <- getThis ;;
  ASSERT (bool_decide (_tableau c = Some tableau)) ;;
  callTableau (Some tableau) (unregisterToWatchVariable (_b c)) ;;
  callTableau (Some tableau) (unregisterToWatchVariable (_f c)) ;;
  modifyThis (set_tableau None).

Definition notifyVariableValue (variable : unsigned) (value : double) : M unit :=
  modifyThis (fun c => set_assignment (<[variable := value]> (_assignment c)) c).

Definition notifyLowerBound (variable : unsigned) (bound : double) : M unit :=
  modifyThis (fun c => set_lowerBounds (<[variable := bound]> (_lowerBounds c)) c) ;;
  c <- getThis ;;
  if (bool_decide (variable = _b c) || bool_decide (variable = _f c))
     && isPositive bound
  then
    (* stuck in active phase *)
    modifyThis (set_validSplits []) ;;
    s <- splitsAt 0 ;;
    modifyThis (fun c => set_validSplits (_validSplits c ++ [s]) c) ;;
    c <- getThis ;;
    ASSERT (bool_decide (is_Some (_tableau c))) ;;
    s <- splitsAt 0 ;;
    callTableau (_tableau c) (applySplit s)
  else ret tt.

Definition notifyUpperBound (variable : unsigned) (bound : double) : M unit :=
  modifyThis (fun c => set_upperBounds (<[variable := bound]> (_upperBounds c)) c) ;;
  c <- getThis ;;
  if bool_decide (variable = _f c) && isNegative bound
  then
    (* stuck in inactive phase *)
    modifyThis (set_validSplits []) ;;
    s <- splitsAt 1 ;;
    modifyThis (fun c => set_validSplits (_validSplits c ++ [s]) c) ;;
    c <- getThis ;;
    ASSERT (bool_decide (is_Some (_tableau c))) ;;
    s <- splitsAt 1 ;;
    callTableau (_tableau c) (applySplit s)
  else ret tt.

Definition participatingVariable (variable : unsigned) : M bool :=
  c <- getThis ;;
  ret (bool_decide (variable = _b c) || bool_decide (variable = _f c)).

Definition getParticiatingVariables : M (list unsigned) :=
  c <- getThis ;;
  ret [_b c; _f c].

Definition satisfied : M bool :=
  c <- getThis ;;
  if negb (Map_exists (_assignment c) (_b c) && Map_exists (_assignment c) (_f c))
  then raise (ReluplexError PARTICIPATING_VARIABLES_ABSENT)
  else
    bValue <- Map_get (_assignment c) (_b c) ;;
    fValue <- Map_get (_assignment c) (_f c) ;;
    ASSERT (negb (isNegative fValue)) ;;
    if isPositive fValue
    then ret (areEqual bValue fValue)
    else ret (negb (isPositive bValue)).

Definition getPossibleFixes : M (list Fix) :=
  s <- satisfied ;;
  ASSERT (negb s) ;;
  c <- getThis ;;
  ASSERT (Map_exists (_assignment c) (_b c)) ;;
  ASSERT (Map_exists (_assignment c) (_f c)) ;;
  bValue <- Map_get (_assignment c) (_b c) ;;
  fValue <- Map_get (_assignment c) (_f c) ;;
  ASSERT (negb (isNegative fValue)) ;;
  let fixes : list Fix := [] in
  (* Possible violations:
       1. f is positive, b is positive, b and f are disequal
       2. f is positive, b is non-positive
       3. f is zero, b is positive *)
  if isPositive fValue
  then
    if isPositive bValue
    then
      let fixes := fixes ++ [mkFix (_b c) fValue] in
      let fixes := fixes ++ [mkFix (_f c) bValue] in
      ret fixes
    else
      let fixes := fixes ++ [mkFix (_b c) fValue] in
      let fixes := fixes ++ [mkFix (_f c) 0] in
      ret fixes
  else
    let fixes := fixes ++ [mkFix (_b c) 0] in
    let fixes := fixes ++ [mkFix (_f c) bValue] in
    ret fixes.

Definition getCaseSplits : M (list PiecewiseLinearCaseSplit) :=
  c <- getThis ;;
  ret (_validSplits c).

(** *** Sequences of calls from the tableau side *)

Definition perform (call : Call) : M unit :=
  match call with
  | RegisterAsWatcher t => registerAsWatcher t
  | UnregisterAsWatcher t => unregisterAsWatcher t
  | NotifyVariableValue v x => notifyVariableValue v x
  | NotifyLowerBound v x => notifyLowerBound v x
  | NotifyUpperBound v x => notifyUpperBound v x
  end.

Fixpoint performAll (calls : list Call) : M unit :=
  match calls with
  | [] => ret tt
  | call :: rest => perform call ;; performAll rest
  end.
End Methods.


(** ** Vocabulary of the properties *)

(** What a computation yields, whatever the world it leaves. *)
Definition outcome {A} (r : Result A) : A + Error :=
  match r with
  | Returns a _ => inl a
  | Raises e => inr e
  end.

(** The splits the tableau was asked to apply, oldest first. *)
Definition appliedSplits (w : World) : list PiecewiseLinearCaseSplit :=
  omap (λ tc, match tc.2 with
              | applySplit s => Some s
              | _ => None
              end) (tableauCalls w).

(** [n] calls in a row of the same method, with what each returned. *)
Fixpoint repeatedly {A} (n : nat) (m : M A) : M (list A) :=
  match n with
  | O => ret []
  | S n' => a <- m ;; l <- repeatedly n' m ;; ret (a :: l)
  end.


Definition isValueNotification (call : Call) : bool :=
  match call with
  | NotifyVariableValue _ _ => true
  | _ => false
  end.

(** The three violation shapes of [getPossibleFixes]. *)
Inductive Violation :=
| BothPositiveUnequal
| PositiveOutputNonPositiveInput
| ZeroOutputPositiveInput.

Definition fixesOf (v : Violation) (b f : unsigned) (bValue fValue : double) : list Fix :=
  match v with
  | BothPositiveUnequal => [mkFix b fValue; mkFix f bValue]
  | PositiveOutputNonPositiveInput => [mkFix b fValue; mkFix f 0%float]
  | ZeroOutputPositiveInput => [mkFix b 0%float; mkFix f bValue]
  end.

(** Values are cached for both participating variables. *)
Definition cached (w : World) (bValue fValue : double) : Prop :=
  _assignment (this w) !! _b (this w) = Some bValue ∧
  _assignment (this w) !! _f (this w) = Some fValue.

(** The part of the object that never changes after construction. *)
Definition constructed (b f auxVariable : unsigned) (c : ReluConstraint) : Prop :=
  _b c = b ∧ _f c = f ∧
  _splits c = [activePhase b f auxVariable; inactivePhase b f auxVariable].

(** [0] is the active phase and [1] the inactive one, as in [_splits]. *)
Definition phaseAt (b f auxVariable : unsigned) (i : nat) : PiecewiseLinearCaseSplit :=
  match i with
  | O => activePhase b f auxVariable
  | S _ => inactivePhase b f auxVariable
  end.

Section Vocabulary.
Context {FU : FloatUtils}.

(** A value FloatUtils treats as a number: if positive, it equals itself
    within the tolerance and is not negative. *)
Definition coherent (x : double) : Prop :=
  isPositive x = true → areEqual x x = true ∧ isNegative x = false.


Definition hasShape (v : Violation) (bValue fValue : double) : bool :=
  match v with
  | BothPositiveUnequal =>
      isPositive fValue && isPositive bValue && negb (areEqual bValue fValue)
  | PositiveOutputNonPositiveInput =>
      isPositive fValue && negb (isPositive bValue)
  | ZeroOutputPositiveInput =>
      negb (isPositive fValue) && negb (isNegative fValue) && isPositive bValue
  end.

(** The phase a call forces, if any, by its index in [_splits]. *)
Definition collapses (b f : unsigned) (call : Call) : option nat :=
  match call with
  | NotifyLowerBound v x =>
      if (bool_decide (v = b) || bool_decide (v = f)) && isPositive x
      then Some 0%nat else None
  | NotifyUpperBound v x =>
      if bool_decide (v = f) && isNegative x then Some 1%nat else None
  | _ => None
  end.

(** The valid splits after a call, from the valid splits before it. *)
Definition validAfter (b f auxVariable : unsigned) (call : Call)
    (valid : list PiecewiseLinearCaseSplit) : list PiecewiseLinearCaseSplit :=
  from_option (λ i, [phaseAt b f auxVariable i]) valid (collapses b f call).

(** The world a sequence of calls leaves behind (the starting world when a
    call stops the sequence). *)
Definition worldAfter (calls : list Call) (w : World) : World :=
  match performAll calls w with
  | Returns _ w' => w'
  | Raises _ => w
  end.

(** The calls a call makes on the tableau when it returns, given the tableau
    attached before it. *)
Definition emitted (b f auxVariable : unsigned) (tableau : option ITableau)
    (call : Call) : list (ITableau * TableauCall) :=
  match call with
  | RegisterAsWatcher t =>
      [(t, registerToWatchVariable b); (t, registerToWatchVariable f)]
  | UnregisterAsWatcher t =>
      [(t, unregisterToWatchVariable b); (t, unregisterToWatchVariable f)]
  | _ =>
      match collapses b f call, tableau with
      | Some i, Some t => [(t, applySplit (phaseAt b f auxVariable i))]
      | _, _ => []
      end
  end.

(** The calls an assertion stops: unregistering from a tableau that is not
    the attached one, and forcing a phase with no tableau attached. *)
Definition refused (b f : unsigned) (tableau : option ITableau) (call : Call) : bool :=
  match call with
  | RegisterAsWatcher _ => false
  | UnregisterAsWatcher t => negb (bool_decide (tableau = Some t))
  | _ => bool_decide (is_Some (collapses b f call)) && bool_decide (tableau = None)
  end.
End Vocabulary.

(** The tableau attached after a call that returns. *)
Definition tableauAfter (tableau : option ITableau) (call : Call) : option ITableau :=
  match call with
  | RegisterAsWatcher t => Some t
  | UnregisterAsWatcher _ => None
  | _ => tableau
  end.

(** The three notifications, as opposed to attaching and detaching. *)
Definition isNotification (call : Call) : bool :=
  match call with
  | RegisterAsWatcher _ | UnregisterAsWatcher _ => false
  | _ => true
  end.

(** The three caches, and the value a call writes for [v] in each. *)
Inductive Cache := Values | LowerBounds | UpperBounds.

Definition cacheOf (k : Cache) (c : ReluConstraint) : gmap N float :=
  match k with
  | Values => _assignment c
  | LowerBounds => _lowerBounds c
  | UpperBounds => _upperBounds c
  end.

Definition written (k : Cache) (v : unsigned) (call : Call) : option double :=
  match k, call with
  | Values, NotifyVariableValue v' x
  | LowerBounds, NotifyLowerBound v' x
  | UpperBounds, NotifyUpperBound v' x => if bool_decide (v' = v) then Some x else None
  | _, _ => None
  end.

(** The cache a notification writes, and the caches after it. *)
Definition valuesAfter (call : Call) (values : gmap N float) : gmap N float :=
  match call with
  | NotifyVariableValue v x => <[v := x]> values
  | _ => values
  end.

Definition lowerBoundsAfter (call : Call) (bounds : gmap N float) : gmap N float :=
  match call with
  | NotifyLowerBound v x => <[v := x]> bounds
  | _ => bounds
  end.

Definition upperBoundsAfter (call : Call) (bounds : gmap N float) : gmap N float :=
  match call with
  | NotifyUpperBound v x => <[v := x]> bounds
  | _ => bounds
  end.

(** ** A FloatUtils to run the scenarios with *)

(** Modelled from the spec: FloatUtils.h is not among the sources. The
    specification speaks of a strictly positive value, a strictly negative
    value, and of two values equal within the system's floating-point equality
    tolerance; [tolerance] is that tolerance. *)
Definition FloatUtils_tolerance (tolerance : double) : FloatUtils := {|
  isPositive x := (0 <? x)%float;
  isNegative x := (x <? 0)%float;
  areEqual x y := (abs (x - y) <=? tolerance)%float;
|}.

Definition sampleTolerance : double := 0x1p-33%float.

Definition FU0 : FloatUtils := FloatUtils_tolerance sampleTolerance.

(** The value [_tableau] happens to hold after construction in the sample
    worlds: an address that is none of the tableaus the scenarios use. *)
Definition indeterminate : option ITableau := Some 77%N.

(** A constraint over b = 1 and f = 2 with auxiliary variable 3, told the two
    values. *)
Definition told (bValue fValue : double) : World :=
  worldAfter (FU := FU0)
    [NotifyVariableValue 1 bValue; NotifyVariableValue 2 fValue] (World_new 1 2 3 indeterminate).

(** The same constraint, attached to the tableau at address 9. *)
Definition attached : World :=
  worldAfter (FU := FU0) [RegisterAsWatcher 9] (World_new 1 2 3 indeterminate).

(** The attached constraint after a lower bound of 1.0 was notified on b. *)
Definition stuckActive : World :=
  worldAfter (FU := FU0) [NotifyLowerBound 1 1] attached.

(** The constraint attached to the tableau at address 9 and detached again:
    [unregisterAsWatcher] has set [_tableau] to null. *)
Definition detached : World :=
  worldAfter (FU := FU0) [UnregisterAsWatcher 9] attached.

(** ** What each method computes *)

Ltac run :=
  unfold getPossibleFixes, satisfied, getCaseSplits, participatingVariable,
    notifyLowerBound, notifyUpperBound, notifyVariableValue,
    registerAsWatcher, unregisterAsWatcher, splitsAt, modifyThis, Map_get,
    Map_exists, ASSERT, callTableau, bind, ret, raise, getThis, setThis;
  cbn [this tableauCalls _b _f _splits _validSplits _assignment _lowerBounds
       _upperBounds _tableau set_validSplits set_assignment set_lowerBounds
       set_upperBounds set_tableau].

Section Equations.
Context {FU : FloatUtils}.
Implicit Types (w : World) (c : ReluConstraint) (v : unsigned) (x : double).

Lemma notifyVariableValue_eq v x w :
  notifyVariableValue v x w =
  Returns tt (mkWorld (set_assignment (<[v := x]> (_assignment (this w))) (this w))
                      (tableauCalls w)).
Proof. reflexivity. Qed.

Lemma notifyLowerBound_eq v x w :
  notifyLowerBound v x w =
  let c := set_lowerBounds (<[v := x]> (_lowerBounds (this w))) (this w) in
  match collapses (_b c) (_f c) (NotifyLowerBound v x) with
  | Some _ =>
      match _splits c !! 0%nat, _tableau c with
      | Some s, Some t =>
          Returns tt (mkWorld (set_validSplits [s] c)
                              (tableauCalls w ++ [(t, applySplit s)]))
      | Some _, None => Raises AssertionViolation
      | None, _ => Raises IndexOutOfRange
      end
  | None => Returns tt (mkWorld c (tableauCalls w))
  end.
Proof.
  destruct w as [[b f splits valid values lower upper tableau] calls].
  run. cbn [collapses].
  destruct (_ && _); [|reflexivity].
  destruct splits as [|s l]; [reflexivity|].
  destruct tableau; reflexivity.
Qed.

Lemma notifyUpperBound_eq v x w :
  notifyUpperBound v x w =
  let c := set_upperBounds (<[v := x]> (_upperBounds (this w))) (this w) in
  match collapses (_b c) (_f c) (NotifyUpperBound v x) with
  | Some _ =>
      match _splits c !! 1%nat, _tableau c with
      | Some s, Some t =>
          Returns tt (mkWorld (set_validSplits [s] c)
                              (tableauCalls w ++ [(t, applySplit s)]))
      | Some _, None => Raises AssertionViolation
      | None, _ => Raises IndexOutOfRange
      end
  | None => Returns tt (mkWorld c (tableauCalls w))
  end.
Proof.
  destruct w as [[b f splits valid values lower upper tableau] calls].
  run. cbn [collapses].
  destruct (_ && _); [|reflexivity].
  destruct splits as [|s0 [|s1 l]]; [reflexivity..|].
  destruct tableau; reflexivity.
Qed.

Lemma registerAsWatcher_eq t w :
  registerAsWatcher t w =
  Returns tt (mkWorld (set_tableau (Some t) (this w))
                      ((tableauCalls w ++ [(t, registerToWatchVariable (_b (this w)))])
                         ++ [(t, registerToWatchVariable (_f (this w)))])).
Proof. reflexivity. Qed.

Lemma unregisterAsWatcher_eq t w :
  unregisterAsWatcher t w =
  if bool_decide (_tableau (this w) = Some t)
  then Returns tt (mkWorld (set_tableau None (this w))
                      ((tableauCalls w ++ [(t, unregisterToWatchVariable (_b (this w)))])
                         ++ [(t, unregisterToWatchVariable (_f (this w)))]))
  else Raises AssertionViolation.
Proof. run. destruct (bool_decide _); reflexivity. Qed.

Lemma satisfied_eq w :
  satisfied w =
  match _assignment (this w) !! _b (this w), _assignment (this w) !! _f (this w) with
  | Some bValue, Some fValue =>
      if isNegative fValue then Raises AssertionViolation
      else Returns (if isPositive fValue then areEqual bValue fValue
                    else negb (isPositive bValue)) w
  | _, _ => Raises (ReluplexError PARTICIPATING_VARIABLES_ABSENT)
  end.
Proof.
  run. destruct (_ !! _b _) as [bValue|], (_ !! _f _) as [fValue|]; try reflexivity.
  cbn. destruct (isNegative fValue); [reflexivity|]. cbn.
  destruct (isPositive fValue); reflexivity.
Qed.

Lemma getPossibleFixes_eq w :
  getPossibleFixes w =
  match _assignment (this w) !! _b (this w), _assignment (this w) !! _f (this w) with
  | Some bValue, Some fValue =>
      if isNegative fValue then Raises AssertionViolation
      else if (if isPositive fValue then areEqual bValue fValue
               else negb (isPositive bValue))
      then Raises AssertionViolation
      else Returns
             (if isPositive fValue
              then if isPositive bValue
                   then [mkFix (_b (this w)) fValue; mkFix (_f (this w)) bValue]
                   else [mkFix (_b (this w)) fValue; mkFix (_f (this w)) 0%float]
              else [mkFix (_b (this w)) 0%float; mkFix (_f (this w)) bValue]) w
  | _, _ => Raises (ReluplexError PARTICIPATING_VARIABLES_ABSENT)
  end.
Proof.
  unfold getPossibleFixes, bind at 1. rewrite satisfied_eq.
  destruct (_assignment (this w) !! _b (this w)) as [bValue|] eqn:Hb;
    destruct (_assignment (this w) !! _f (this w)) as [fValue|] eqn:Hf;
    try reflexivity.
  destruct (isNegative fValue) eqn:Hneg; [reflexivity|].
  run.
  destruct (isPositive fValue) eqn:Hpf, (isPositive bValue) eqn:Hpb,
    (areEqual bValue fValue); cbn; rewrite ?Hb, ?Hf; cbn;
    rewrite ?Hneg; cbn; rewrite ?Hpf, ?Hpb; reflexivity.
Qed.

Lemma getCaseSplits_eq w : getCaseSplits w = Returns (_validSplits (this w)) w.
Proof. reflexivity. Qed.

(** The three queries are [const]: when they return, the world is as it was. *)
Lemma queries_read_only w :
  (∀ s w', satisfied w = Returns s w' → w' = w) ∧
  (∀ fixes w', getPossibleFixes w = Returns fixes w' → w' = w) ∧
  (∀ splits w', getCaseSplits w = Returns splits w' → w' = w).
Proof.
  rewrite satisfied_eq, getPossibleFixes_eq, getCaseSplits_eq.
  destruct (_assignment (this w) !! _b (this w)) as [bValue|];
    destruct (_assignment (this w) !! _f (this w)) as [fValue|];
    try (repeat split; intros; by simplify_eq).
  destruct (isNegative fValue); [repeat split; intros; by simplify_eq|].
  destruct (if isPositive fValue then _ else _); repeat split; intros; by simplify_eq.
Qed.


(** *** Calls and sequences of calls *)

Lemma constructed_new b f auxVariable tableau0 :
  constructed b f auxVariable (ReluConstraint_new b f auxVariable tableau0).
Proof. repeat split. Qed.

Lemma collapses_lower_index b f v x i :
  collapses b f (NotifyLowerBound v x) = Some i → i = 0%nat.
Proof. cbn. destruct (_ && _); congruence. Qed.

Lemma collapses_upper_index b f v x i :
  collapses b f (NotifyUpperBound v x) = Some i → i = 1%nat.
Proof. cbn. destruct (_ && _); congruence. Qed.

Lemma collapses_index b f call i :
  collapses b f call = Some i → i = 0%nat ∨ i = 1%nat.
Proof.
  destruct call; try done.
  - intros ->%collapses_lower_index. by left.
  - intros ->%collapses_upper_index. by right.
Qed.

Lemma perform_constructed b f auxVariable call w w' :
  constructed b f auxVariable (this w) →
  perform call w = Returns tt w' →
  constructed b f auxVariable (this w') ∧
  _assignment (this w') =
    match call with
    | NotifyVariableValue v x => <[v := x]> (_assignment (this w))
    | _ => _assignment (this w)
    end ∧
  _validSplits (this w') = validAfter b f auxVariable call (_validSplits (this w)).
Proof.
  intros (Hb & Hf & Hs) Hrun. unfold validAfter.
  destruct call as [t|t|v x|v x|v x]; cbn [perform] in Hrun.
  - rewrite registerAsWatcher_eq in Hrun. by simplify_eq.
  - rewrite unregisterAsWatcher_eq in Hrun. case_bool_decide; by simplify_eq.
  - rewrite notifyVariableValue_eq in Hrun. by simplify_eq.
  - rewrite notifyLowerBound_eq in Hrun. cbn zeta in Hrun.
    cbn [set_lowerBounds _b _f _splits _tableau] in Hrun. rewrite Hb, Hf, Hs in Hrun.
    destruct (collapses b f _) as [i|] eqn:Hc.
    + apply collapses_lower_index in Hc as ->. cbn in Hrun.
      destruct (_tableau (this w)); by simplify_eq.
    + by simplify_eq.
  - rewrite notifyUpperBound_eq in Hrun. cbn zeta in Hrun.
    cbn [set_upperBounds _b _f _splits _tableau] in Hrun. rewrite Hb, Hf, Hs in Hrun.
    destruct (collapses b f _) as [i|] eqn:Hc.
    + apply collapses_upper_index in Hc as ->. cbn in Hrun.
      destruct (_tableau (this w)); by simplify_eq.
    + by simplify_eq.
Qed.

Lemma performAll_cons call calls w :
  performAll (call :: calls) w =
  match perform call w with
  | Returns _ w' => performAll calls w'
  | Raises e => Raises e
  end.
Proof. reflexivity. Qed.

Lemma performAll_constructed b f auxVariable calls w w' :
  constructed b f auxVariable (this w) →
  performAll calls w = Returns tt w' →
  constructed b f auxVariable (this w') ∧
  _validSplits (this w') =
    foldl (λ valid call, validAfter b f auxVariable call valid)
          (_validSplits (this w)) calls ∧
  (Forall (λ call, isValueNotification call = false) calls →
   _assignment (this w') = _assignment (this w)).
Proof.
  revert w. induction calls as [|call calls IH]; intros w Hc Hrun.
  - cbn in Hrun. unfold ret in Hrun. by simplify_eq.
  - rewrite performAll_cons in Hrun.
    destruct (perform call w) as [[] w1|e] eqn:Hstep; [|done].
    destruct (perform_constructed _ _ _ _ _ _ Hc Hstep) as (Hc1 & Ha1 & Hv1).
    destruct (IH _ Hc1 Hrun) as (Hc' & Hv' & Ha'). split; [done|]. split.
    + cbn [foldl]. by rewrite <- Hv1.
    + intros [Hcall Hcalls]%Forall_cons. rewrite (Ha' Hcalls), Ha1.
      by destruct call.
Qed.

(** A call that forces a phase, on an object with a tableau attached. *)
Lemma perform_collapsing b f auxVariable call i t w :
  constructed b f auxVariable (this w) →
  _tableau (this w) = Some t →
  collapses b f call = Some i →
  ∃ w', perform call w = Returns tt w' ∧
        _validSplits (this w') = [phaseAt b f auxVariable i] ∧
        tableauCalls w' = tableauCalls w ++ [(t, applySplit (phaseAt b f auxVariable i))].
Proof.
  intros (Hb & Hf & Hs) Ht Hcol.
  destruct call as [| |v x|v x|v x]; try done; cbn [perform].
  - rewrite notifyLowerBound_eq. cbn zeta.
    cbn [set_lowerBounds _b _f _splits _tableau]. rewrite Hb, Hf, Hs, Ht, Hcol.
    apply collapses_lower_index in Hcol as ->. by eexists.
  - rewrite notifyUpperBound_eq. cbn zeta.
    cbn [set_upperBounds _b _f _splits _tableau]. rewrite Hb, Hf, Hs, Ht, Hcol.
    apply collapses_upper_index in Hcol as ->. by eexists.
Qed.

(** With a tableau attached, every notification returns. *)
Lemma notification_returns b f auxVariable call t w :
  constructed b f auxVariable (this w) →
  _tableau (this w) = Some t →
  (∀ t', call ≠ RegisterAsWatcher t' ∧ call ≠ UnregisterAsWatcher t') →
  ∃ w', perform call w = Returns tt w' ∧ _tableau (this w') = Some t.
Proof.
  intros Hc Ht Hcall.
  destruct (collapses b f call) as [i|] eqn:Hcol.
  - destruct Hc as (Hb & Hf & Hs).
    destruct call as [| |v x|v x|v x]; try done; cbn [perform].
    + rewrite notifyLowerBound_eq. cbn zeta.
      cbn [set_lowerBounds _b _f _splits _tableau]. rewrite Hb, Hf, Hs, Ht, Hcol.
      by eexists.
    + rewrite notifyUpperBound_eq. cbn zeta.
      cbn [set_upperBounds _b _f _splits _tableau]. rewrite Hb, Hf, Hs, Ht, Hcol.
      by eexists.
  - destruct Hc as (Hb & Hf & Hs).
    destruct call as [t'|t'|v x|v x|v x]; cbn [perform].
    + by destruct (Hcall t') as [[] _].
    + by destruct (Hcall t') as [_ []].
    + rewrite notifyVariableValue_eq. by eexists.
    + rewrite notifyLowerBound_eq. cbn zeta.
      cbn [set_lowerBounds _b _f _splits _tableau]. rewrite Hb, Hf, Hcol. by eexists.
    + rewrite notifyUpperBound_eq. cbn zeta.
      cbn [set_upperBounds _b _f _splits _tableau]. rewrite Hb, Hf, Hcol. by eexists.
Qed.
End Equations.

(** ** Satisfaction and local repair *)

Section Satisfaction.
Context {FU : FloatUtils}.
Implicit Types (w : World) (bValue fValue : double).

(** C1. With values cached for both b and f, and f not negative,
    [satisfied()] returns, leaves everything as it was, and returns true
    exactly when: if f is positive, b equals f within the tolerance; and if
    f is not positive (zero), b is not positive. *)
Theorem satisfied_decision_rule w bValue fValue :
  cached w bValue fValue →
  isNegative fValue = false →
  ∃ s : bool,
    satisfied w = Returns s w ∧
    (s = true ↔
       (isPositive fValue = true → areEqual bValue fValue = true) ∧
       (isPositive fValue = false → isPositive bValue = false)).
Proof.
  intros [Hb Hf] Hneg. rewrite satisfied_eq, Hb, Hf, Hneg.
  eexists; split; [reflexivity|].
  destruct (isPositive fValue), (isPositive bValue), (areEqual bValue fValue);
    cbn; intuition congruence.
Qed.

Lemma satisfied_false_inv w bValue fValue :
  cached w bValue fValue →
  satisfied w = Returns false w →
  isNegative fValue = false ∧
  (if isPositive fValue then areEqual bValue fValue
   else negb (isPositive bValue)) = false.
Proof.
  intros [Hb Hf]. rewrite satisfied_eq, Hb, Hf.
  destruct (isNegative fValue); [done|]. intros; by simplify_eq.
Qed.


Lemma getPossibleFixes_violating w bValue fValue :
  cached w bValue fValue →
  satisfied w = Returns false w →
  getPossibleFixes w =
  Returns (if isPositive fValue
           then if isPositive bValue
                then fixesOf BothPositiveUnequal (_b (this w)) (_f (this w)) bValue fValue
                else fixesOf PositiveOutputNonPositiveInput (_b (this w)) (_f (this w))
                             bValue fValue
           else fixesOf ZeroOutputPositiveInput (_b (this w)) (_f (this w)) bValue fValue)
          w.
Proof.
  intros Hc Hsat. destruct (satisfied_false_inv _ _ _ Hc Hsat) as [Hneg Hv].
  destruct Hc as [Hb Hf]. by rewrite getPossibleFixes_eq, Hb, Hf, Hneg, Hv.
Qed.

(** C5. A violating assignment has exactly one of the three shapes, and
    [getPossibleFixes()] returns the two fixes of that shape, in the order
    of the table. *)
Theorem fixes_follow_the_table w bValue fValue :
  cached w bValue fValue →
  isNegative fValue = false →
  satisfied w = Returns false w →
  ∃ v : Violation,
    hasShape v bValue fValue = true ∧
    (∀ v', hasShape v' bValue fValue = true → v' = v) ∧
    getPossibleFixes w =
      Returns (fixesOf v (_b (this w)) (_f (this w)) bValue fValue) w.
Proof.
  intros Hc Hneg Hsat. rewrite (getPossibleFixes_violating _ _ _ Hc Hsat).
  destruct (satisfied_false_inv _ _ _ Hc Hsat) as [_ Hv].
  destruct (isPositive fValue) eqn:Hpf; [destruct (isPositive bValue) eqn:Hpb|].
  - exists BothPositiveUnequal. cbn [hasShape]. rewrite Hpf, Hpb, Hv.
    repeat split. intros []; cbn; rewrite ?Hpf, ?Hpb; cbn; congruence.
  - exists PositiveOutputNonPositiveInput. cbn [hasShape]. rewrite Hpf, Hpb.
    repeat split. intros []; cbn; rewrite ?Hpf, ?Hpb; cbn; congruence.
  - apply negb_false_iff in Hv.
    exists ZeroOutputPositiveInput. cbn [hasShape]. rewrite Hpf, Hneg, Hv.
    repeat split. intros []; cbn; rewrite ?Hpf, ?Hv; cbn; congruence.
Qed.



(** C8. When b or f has no cached value, [satisfied()] throws
    PARTICIPATING_VARIABLES_ABSENT, and so does [getPossibleFixes()], whose
    first assertion evaluates [satisfied()]. *)
Theorem missing_assignment w :
  _assignment (this w) !! _b (this w) = None ∨
  _assignment (this w) !! _f (this w) = None →
  satisfied w = Raises (ReluplexError PARTICIPATING_VARIABLES_ABSENT) ∧
  getPossibleFixes w = Raises (ReluplexError PARTICIPATING_VARIABLES_ABSENT).
Proof.
  intros Hmiss. rewrite satisfied_eq, getPossibleFixes_eq.
  destruct Hmiss as [-> | ->]; [done|].
  by destruct (_assignment (this w) !! _b (this w)).
Qed.

(** Before any value notification nothing is cached. *)
Lemma nothing_cached_before_values b f auxVariable tableau0 calls w :
  Forall (λ call, isValueNotification call = false) calls →
  performAll calls (World_new b f auxVariable tableau0) = Returns tt w →
  _assignment (this w) = ∅.
Proof.
  intros Hcalls Hrun.
  destruct (performAll_constructed b f auxVariable calls
              (World_new b f auxVariable tableau0) w) as (_ & _ & Ha);
    [apply constructed_new|done|].
  by rewrite Ha.
Qed.
End Satisfaction.

(** ** Notifications and the valid splits *)

Section Phases.
Context {FU : FloatUtils}.
Variables (b f auxVariable : unsigned) (tableau0 : option ITableau).
Implicit Types (w : World) (call : Call) (calls : list Call).

Local Abbreviation Active := (activePhase b f auxVariable).
Local Abbreviation Inactive := (inactivePhase b f auxVariable).
Local Abbreviation phase := (phaseAt b f auxVariable).
Local Abbreviation fresh := (World_new b f auxVariable tableau0).

(** The valid splits after a sequence of calls are those of the last call
    that forced a phase, if there is one. *)
Lemma foldl_validAfter calls valid :
  foldl (λ valid call, validAfter b f auxVariable call valid) valid calls =
  from_option (λ i, [phase i]) valid (last (omap (collapses b f) calls)).
Proof.
  induction calls as [|call calls IH] using rev_ind; [reflexivity|].
  rewrite foldl_app, omap_app. cbn [foldl omap list_omap]. unfold validAfter at 1.
  rewrite IH. destruct (collapses b f call) as [i|]; cbn.
  - by rewrite last_snoc.
  - by rewrite app_nil_r.
Qed.

Lemma valid_after_fresh calls w :
  performAll calls fresh = Returns tt w →
  constructed b f auxVariable (this w) ∧
  _validSplits (this w) =
    from_option (λ i, [phase i]) [Active; Inactive] (last (omap (collapses b f) calls)).
Proof.
  intros Hrun.
  destruct (performAll_constructed b f auxVariable calls fresh w) as (Hc & Hv & _);
    [apply constructed_new|done|].
  split; [done|]. by rewrite Hv, foldl_validAfter.
Qed.

Lemma appliedSplits_snoc w w' t s :
  tableauCalls w' = tableauCalls w ++ [(t, applySplit s)] →
  appliedSplits w' = appliedSplits w ++ [s].
Proof. unfold appliedSplits. intros ->. by rewrite omap_app. Qed.

Lemma omap_collapses_nil calls :
  Forall (λ call, collapses b f call = None) calls →
  omap (collapses b f) calls = [].
Proof.
  induction 1 as [|call calls Hcall _ IH]; [reflexivity|].
  cbn [omap list_omap]. by rewrite Hcall.
Qed.

(** After a call that forced the active phase, calls that do not force the
    inactive one leave the active phase the last one forced. *)
Lemma last_collapse_active later (l : list nat) :
  Forall (λ call, collapses b f call ≠ Some 1%nat) later →
  last (l ++ 0%nat :: omap (collapses b f) later) = Some 0%nat.
Proof.
  revert l. induction later as [|call later IH] using rev_ind; intros l Hlater.
  - cbn. by rewrite last_snoc.
  - apply Forall_app in Hlater as [Hlater Hcall]. apply Forall_inv in Hcall.
    rewrite omap_app. cbn [omap list_omap].
    destruct (collapses b f call) as [i|] eqn:Hi; cbn.
    + destruct (collapses_index _ _ _ _ Hi) as [-> | ->]; [|done].
      by rewrite app_comm_cons, app_assoc, last_snoc.
    + rewrite app_nil_r. by apply IH.
Qed.

(** C2, as the code has it. A bound notification that forces a phase, on a
    constructed object with a tableau attached, returns; it leaves that
    phase as the only valid split, so a set that was already that singleton
    is unchanged; and it applies the phase to the tableau each time: every
    such notification adds exactly one [applySplit] call, whether or not the
    phase was already the sole valid one. On a tableau that was asked to
    apply nothing yet, that is exactly one application. *)
Theorem collapse_applies_each_time call i t w :
  constructed b f auxVariable (this w) →
  _tableau (this w) = Some t →
  collapses b f call = Some i →
  ∃ w', perform call w = Returns tt w' ∧
        _validSplits (this w') = [phase i] ∧
        (_validSplits (this w) = [phase i] →
         _validSplits (this w') = _validSplits (this w)) ∧
        tableauCalls w' = tableauCalls w ++ [(t, applySplit (phase i))] ∧
        appliedSplits w' = appliedSplits w ++ [phase i] ∧
        (appliedSplits w = [] → appliedSplits w' = [phase i]).
Proof.
  intros Hc Ht Hcol.
  destruct (perform_collapsing _ _ _ _ _ _ _ Hc Ht Hcol) as (w' & Hrun & Hv & Hcalls).
  pose proof (appliedSplits_snoc _ _ _ _ Hcalls) as Happlied.
  exists w'. repeat split; [done|done|congruence|done|done|].
  intros Hnone. by rewrite Happlied, Hnone.
Qed.

(** C3, as the code has it. Once a strictly positive lower bound has been
    notified on b or f, the valid splits are the active phase alone after
    every later sequence of calls in which no strictly negative upper bound
    is notified on f. *)
Theorem active_until_negative_upper_bound calls v x later w :
  (v = b ∨ v = f) →
  isPositive x = true →
  Forall (λ call, collapses b f call ≠ Some 1%nat) later →
  performAll (calls ++ NotifyLowerBound v x :: later) fresh = Returns tt w →
  _validSplits (this w) = [Active].
Proof.
  intros Hv Hx Hlater Hrun.
  destruct (valid_after_fresh _ _ Hrun) as [_ ->].
  rewrite omap_app. cbn [omap list_omap].
  assert (collapses b f (NotifyLowerBound v x) = Some 0%nat) as ->.
  { cbn. rewrite Hx. by destruct Hv as [-> | ->]; repeat case_bool_decide. }
  by rewrite last_collapse_active.
Qed.

(** C6. The valid splits are both phases at construction; after every
    sequence of calls that returns they are not empty; and each further
    call either leaves them as they are or makes them a singleton, so their
    number never grows. *)
Theorem validSplits_never_grow calls call w w' :
  performAll calls fresh = Returns tt w →
  perform call w = Returns tt w' →
  _validSplits (this fresh) = [Active; Inactive] ∧
  _validSplits (this w) ≠ [] ∧
  _validSplits (this w') ≠ [] ∧
  (_validSplits (this w') = _validSplits (this w) ∨
   ∃ s, _validSplits (this w') = [s]) ∧
  length (_validSplits (this w')) ≤ length (_validSplits (this w)).
Proof.
  intros Hrun Hstep.
  destruct (valid_after_fresh _ _ Hrun) as [Hc Hv].
  destruct (perform_constructed _ _ _ _ _ _ Hc Hstep) as (_ & _ & Hv').
  unfold validAfter in Hv'. rewrite Hv', Hv.
  split; [reflexivity|].
  destruct (collapses b f call) as [i|], (last (omap (collapses b f) calls)) as [j|];
    cbn; repeat split; try done; eauto; lia.
Qed.

Lemma repeatedly_getCaseSplits n w :
  repeatedly n getCaseSplits w = Returns (replicate n (_validSplits (this w))) w.
Proof.
  induction n as [|n IH]; [reflexivity|].
  cbn [repeatedly replicate]. unfold bind at 1. rewrite getCaseSplits_eq.
  unfold bind at 1. by rewrite IH.
Qed.

(** C9. In every state a constructed object can reach, with or without
    cached values, [getCaseSplits()] returns [_validSplits] as it is, one or
    two splits; it leaves the object and the record of tableau calls as they
    were; and any number of calls in a row return the same list. *)
Theorem getCaseSplits_read_only calls w n :
  performAll calls fresh = Returns tt w →
  getCaseSplits w = Returns (_validSplits (this w)) w ∧
  (length (_validSplits (this w)) = 1%nat ∨ length (_validSplits (this w)) = 2%nat) ∧
  repeatedly n getCaseSplits w = Returns (replicate n (_validSplits (this w))) w.
Proof.
  intros Hrun. split; [apply getCaseSplits_eq|]. split; [|apply repeatedly_getCaseSplits].
  destruct (valid_after_fresh _ _ Hrun) as [_ ->].
  destruct (last _); cbn; auto.
Qed.

(** C10. As long as no call has forced a phase, [getCaseSplits()] returns
    the active phase first and the inactive phase second; once a call has
    forced a phase it returns the single phase of the last such call. *)
Theorem getCaseSplits_order calls w :
  performAll calls fresh = Returns tt w →
  (Forall (λ call, collapses b f call = None) calls →
   getCaseSplits w = Returns [Active; Inactive] w) ∧
  (∀ i, last (omap (collapses b f) calls) = Some i →
        getCaseSplits w = Returns [phase i] w).
Proof.
  intros Hrun. rewrite getCaseSplits_eq.
  destruct (valid_after_fresh _ _ Hrun) as [_ ->]. split.
  - intros Hnone. by rewrite omap_collapses_nil.
  - by intros i ->.
Qed.
End Phases.

(** ** The value cache *)

Section Cache.
Context {FU : FloatUtils}.
Implicit Types (w : World) (v : unsigned) (value : double).

(** C7, as the code has it. [notifyVariableValue( v, value )] stores the
    value under [v] for every variable id, participating or not. For [v]
    other than b and f this leaves the values cached for b and f, both
    bound caches, the valid splits, the attached tableau and the record of
    tableau calls as they were, and so what [satisfied()] and
    [getPossibleFixes()] yield. *)
Theorem notifyVariableValue_stores w v value :
  v ≠ _b (this w) → v ≠ _f (this w) →
  ∃ w', notifyVariableValue v value w = Returns tt w' ∧
        _assignment (this w') = <[v := value]> (_assignment (this w)) ∧
        _assignment (this w') !! _b (this w') = _assignment (this w) !! _b (this w) ∧
        _assignment (this w') !! _f (this w') = _assignment (this w) !! _f (this w) ∧
        _lowerBounds (this w') = _lowerBounds (this w) ∧
        _upperBounds (this w') = _upperBounds (this w) ∧
        _validSplits (this w') = _validSplits (this w) ∧
        _tableau (this w') = _tableau (this w) ∧
        tableauCalls w' = tableauCalls w ∧
        outcome (satisfied w') = outcome (satisfied w) ∧
        outcome (getPossibleFixes w') = outcome (getPossibleFixes w).
Proof.
  intros Hb Hf. rewrite notifyVariableValue_eq. eexists. split; [reflexivity|].
  rewrite satisfied_eq, getPossibleFixes_eq, (satisfied_eq w), (getPossibleFixes_eq w).
  cbn [this tableauCalls set_assignment _assignment _b _f _lowerBounds
       _upperBounds _validSplits _tableau].
  rewrite !lookup_insert_ne by done. repeat split.
  - destruct (_assignment (this w) !! _b (this w));
      destruct (_assignment (this w) !! _f (this w)) as [fValue|]; try done.
    by destruct (isNegative fValue).
  - destruct (_assignment (this w) !! _b (this w)) as [bValue|];
      destruct (_assignment (this w) !! _f (this w)) as [fValue|]; try done.
    destruct (isNegative fValue); [done|].
    by destruct (isPositive fValue), (isPositive bValue), (areEqual bValue fValue).
Qed.
End Cache.

(** ** Further properties of the methods *)

Section Further.
Context {FU : FloatUtils}.
Implicit Types (w : World) (call : Call) (calls : list Call) (v : unsigned) (x : double).

(** What a call does, on an object as the constructor built it. *)
Lemma perform_spec b f auxVariable call w :
  constructed b f auxVariable (this w) →
  if refused b f (_tableau (this w)) call
  then perform call w = Raises AssertionViolation
  else ∃ w', perform call w = Returns tt w' ∧
             tableauCalls w' =
               tableauCalls w ++ emitted b f auxVariable (_tableau (this w)) call ∧
             _tableau (this w') = tableauAfter (_tableau (this w)) call.
Proof.
  intros (Hb & Hf & Hs).
  destruct call as [t|t|v x|v x|v x]; cbn [perform refused emitted tableauAfter].
  - rewrite registerAsWatcher_eq, Hb, Hf. eexists. by rewrite <- app_assoc.
  - rewrite unregisterAsWatcher_eq, Hb, Hf.
    case_bool_decide; cbn; [|done]. eexists. by rewrite <- app_assoc.
  - rewrite notifyVariableValue_eq. cbn. eexists. by rewrite app_nil_r.
  - rewrite notifyLowerBound_eq. cbn zeta.
    cbn [set_lowerBounds _b _f _splits _tableau]. rewrite Hb, Hf, Hs.
    destruct (collapses b f (NotifyLowerBound v x)) as [i|] eqn:Hcol.
    + apply collapses_lower_index in Hcol as ->.
      destruct (_tableau (this w)) as [t|] eqn:Ht; cbn; [|done].
      eexists. repeat split. done.
    + cbn. eexists. by rewrite app_nil_r.
  - rewrite notifyUpperBound_eq. cbn zeta.
    cbn [set_upperBounds _b _f _splits _tableau]. rewrite Hb, Hf, Hs.
    destruct (collapses b f (NotifyUpperBound v x)) as [i|] eqn:Hcol.
    + apply collapses_upper_index in Hcol as ->.
      destruct (_tableau (this w)) as [t|] eqn:Ht; cbn; [|done].
      eexists. repeat split. done.
    + cbn. eexists. by rewrite app_nil_r.
Qed.

(** The object after a call that returns: only the cache the call writes,
    the valid splits and the attached tableau can differ. *)
Lemma perform_caches call w w' :
  perform call w = Returns tt w' →
  _b (this w') = _b (this w) ∧ _f (this w') = _f (this w) ∧
  _splits (this w') = _splits (this w) ∧
  _assignment (this w') = valuesAfter call (_assignment (this w)) ∧
  _lowerBounds (this w') = lowerBoundsAfter call (_lowerBounds (this w)) ∧
  _upperBounds (this w') = upperBoundsAfter call (_upperBounds (this w)).
Proof.
  destruct call as [t|t|v x|v x|v x]; cbn [perform]; intros Hrun.
  - rewrite registerAsWatcher_eq in Hrun. by simplify_eq.
  - rewrite unregisterAsWatcher_eq in Hrun. case_bool_decide; by simplify_eq.
  - rewrite notifyVariableValue_eq in Hrun. by simplify_eq.
  - rewrite notifyLowerBound_eq in Hrun. cbn zeta in Hrun.
    destruct (collapses _ _ _); [|by simplify_eq].
    destruct (_splits _ !! 0%nat); [|done].
    destruct (_tableau _); by simplify_eq.
  - rewrite notifyUpperBound_eq in Hrun. cbn zeta in Hrun.
    destruct (collapses _ _ _); [|by simplify_eq].
    destruct (_splits _ !! 1%nat); [|done].
    destruct (_tableau _); by simplify_eq.
Qed.

Lemma emitted_applySplit b f auxVariable tableau call t s :
  (t, applySplit s) ∈ emitted b f auxVariable tableau call → tableau = Some t.
Proof.
  destruct call as [t0|t0|v0 x0|v0 x0|v0 x0]; cbn [emitted];
    try (destruct (collapses b f _), tableau); intros Hem;
    repeat (apply elem_of_cons in Hem as [Hem|Hem]; [by simplify_eq|]);
    by apply elem_of_nil in Hem.
Qed.

Lemma performAll_registered b f auxVariable calls w w' :
  constructed b f auxVariable (this w) →
  performAll calls w = Returns tt w' →
  (∀ t, _tableau (this w') = Some t →
        _tableau (this w) = Some t ∨ RegisterAsWatcher t ∈ calls) ∧
  (∀ t s, (t, applySplit s) ∈ tableauCalls w' →
          (t, applySplit s) ∈ tableauCalls w ∨
          _tableau (this w) = Some t ∨ RegisterAsWatcher t ∈ calls).
Proof.
  revert w. induction calls as [|call calls IH]; intros w Hc Hrun.
  - cbn in Hrun. unfold ret in Hrun. simplify_eq. split; auto.
  - rewrite performAll_cons in Hrun.
    destruct (perform call w) as [[] w1|e] eqn:Hstep; [|done].
    destruct (perform_constructed _ _ _ _ _ _ Hc Hstep) as (Hc1 & _).
    pose proof (perform_spec _ _ _ call w Hc) as Hspec.
    destruct (refused b f (_tableau (this w)) call) eqn:Href; [congruence|].
    destruct Hspec as (w1' & Hstep' & Hcalls & Ht).
    rewrite Hstep in Hstep'. injection Hstep' as <-.
    destruct (IH _ Hc1 Hrun) as [IHt IHs].
    assert (∀ t, _tableau (this w1) = Some t →
                 _tableau (this w) = Some t ∨ RegisterAsWatcher t ∈ call :: calls) as Hatt.
    { intros t Ht1. rewrite Ht in Ht1.
      destruct call; cbn in Ht1; simplify_eq; auto; right; by left. }
    split.
    + intros t Ht'. destruct (IHt t Ht') as [Ht1|Hin]; [by apply Hatt|].
      right. by right.
    + intros t s Hin. destruct (IHs t s Hin) as [Hlog|[Ht1|Hreg]].
      * rewrite Hcalls in Hlog. apply elem_of_app in Hlog as [Hlog|Hem]; [by left|].
        right. left. by apply emitted_applySplit in Hem.
      * right. by apply Hatt.
      * right. right. by right.
Qed.

(** X1. Attaching to a tableau and detaching from it again returns; the
    tableau is asked to watch b, then f, then to stop watching b, then f;
    the object is left with no tableau and is otherwise as before. *)
Theorem register_unregister_round_trip t w :
  (registerAsWatcher t ;; unregisterAsWatcher t) w =
  Returns tt
    (mkWorld (set_tableau None (this w))
             (tableauCalls w ++
              [(t, registerToWatchVariable (_b (this w)));
               (t, registerToWatchVariable (_f (this w)));
               (t, unregisterToWatchVariable (_b (this w)));
               (t, unregisterToWatchVariable (_f (this w)))])).
Proof.
  unfold bind. rewrite registerAsWatcher_eq, unregisterAsWatcher_eq.
  cbn [this tableauCalls set_tableau _tableau _b _f].
  rewrite bool_decide_eq_true_2 by done.
  by rewrite <- !app_assoc.
Qed.

(** X2. Once [registerAsWatcher] or [unregisterAsWatcher] has written
    [_tableau], it is null or a tableau the object was registered with, and
    a call fails in exactly two situations, both by an assertion: detaching
    from a tableau other than the attached one (or with none attached), and
    a bound notification that forces a phase while no tableau is attached. *)
Theorem call_fails_exactly_when_refused b f auxVariable first calls call w0 w1 w :
  constructed b f auxVariable (this w0) →
  isNotification first = false →
  perform first w0 = Returns tt w1 →
  performAll calls w1 = Returns tt w →
  (_tableau (this w) = None ∨
   ∃ t, _tableau (this w) = Some t ∧ RegisterAsWatcher t ∈ first :: calls) ∧
  ((∃ e, perform call w = Raises e) ↔ refused b f (_tableau (this w)) call = true) ∧
  (∀ e, perform call w = Raises e → e = AssertionViolation).
Proof.
  intros Hc0 Hfirst Hstep Hrun.
  destruct (perform_constructed _ _ _ _ _ _ Hc0 Hstep) as (Hc1 & _).
  destruct (performAll_constructed _ _ _ _ _ _ Hc1 Hrun) as (Hc & _).
  split.
  - destruct (_tableau (this w)) as [t|] eqn:Ht; [right|by left].
    exists t. split; [done|].
    destruct (performAll_registered _ _ _ _ _ _ Hc1 Hrun) as [Hreg _].
    destruct (Hreg t Ht) as [Ht1|Hin]; [|by right].
    pose proof (perform_spec _ _ _ first w0 Hc0) as Hspec.
    destruct (refused b f (_tableau (this w0)) first); [congruence|].
    destruct Hspec as (w1' & Hstep' & _ & Htab).
    rewrite Hstep in Hstep'. injection Hstep' as <-.
    rewrite Htab in Ht1. destruct first; cbn in Ht1, Hfirst; simplify_eq. by left.
  - pose proof (perform_spec _ _ _ call w Hc) as Hspec.
    destruct (refused b f (_tableau (this w)) call).
    + rewrite Hspec. split; [split; eauto|]. by intros e [= <-].
    + destruct Hspec as (w' & -> & _). split; [|done].
      split; [by intros [e ?]|done].
Qed.

(** X3. [participatingVariable] and [getParticiatingVariables] agree: the
    list is b then f, and a variable participates exactly when it is in
    the list. Neither changes anything. *)
Theorem participating_variables_agree v w :
  ∃ l, getParticiatingVariables w = Returns l w ∧
       l = [_b (this w); _f (this w)] ∧
       participatingVariable v w = Returns (bool_decide (v ∈ l)) w.
Proof.
  eexists. split; [reflexivity|]. split; [reflexivity|].
  unfold participatingVariable, bind, getThis, ret. f_equal.
  apply eq_true_iff_eq. rewrite orb_true_iff, !bool_decide_eq_true.
  rewrite elem_of_cons, list_elem_of_singleton. done.
Qed.

(** X4. Whenever [getPossibleFixes()] returns, its first fix is for b and
    its second for f, so every fix names a participating variable. *)
Theorem fixes_name_b_then_f w fixes w' :
  getPossibleFixes w = Returns fixes w' →
  fix_variable <$> fixes = [_b (this w); _f (this w)] ∧
  Forall (λ fx : Fix, participatingVariable (fix_variable fx) w = Returns true w) fixes.
Proof.
  rewrite getPossibleFixes_eq.
  destruct (_assignment (this w) !! _b (this w)) as [bValue|]; [|done].
  destruct (_assignment (this w) !! _f (this w)) as [fValue|]; [|done].
  destruct (isNegative fValue); [done|].
  destruct (if isPositive fValue then _ else _); [done|].
  intros [= <- <-].
  assert (participatingVariable (_b (this w)) w = Returns true w ∧
          participatingVariable (_f (this w)) w = Returns true w) as [Hpb Hpf].
  { unfold participatingVariable, bind, getThis, ret.
    split; f_equal; by repeat case_bool_decide. }
  destruct (isPositive fValue); [destruct (isPositive bValue)|];
    (split; [reflexivity|by repeat constructor]).
Qed.

Lemma last_omap_cons {A B} (g : A → option B) (a : A) (l : list A) :
  last (omap g (a :: l)) =
  match last (omap g l) with
  | Some y => Some y
  | None => g a
  end.
Proof.
  cbn [omap list_omap]. destruct (g a) as [y|]; [|by destruct (last _)].
  by rewrite last_cons.
Qed.

Lemma perform_written (k : Cache) v call w w' :
  perform call w = Returns tt w' →
  cacheOf k (this w') !! v =
  match written k v call with
  | Some x => Some x
  | None => cacheOf k (this w) !! v
  end.
Proof.
  intros Hrun. destruct (perform_caches _ _ _ Hrun) as (_ & _ & _ & Ha & Hl & Hu).
  destruct k; cbn [cacheOf]; rewrite ?Ha, ?Hl, ?Hu;
    destruct call as [t|t|v' x|v' x|v' x]; cbn; try done;
    rewrite lookup_insert; by repeat case_decide; repeat case_bool_decide.
Qed.

(** X5. Each cache holds, for every variable, the value of the last
    notification of its kind for that variable, and what it held before
    when there was none: notifications of the other kinds, for other
    variables, attaching and detaching never change it. *)
Theorem caches_hold_last_notification (k : Cache) v calls w w' :
  performAll calls w = Returns tt w' →
  cacheOf k (this w') !! v =
  match last (omap (written k v) calls) with
  | Some x => Some x
  | None => cacheOf k (this w) !! v
  end.
Proof.
  revert w. induction calls as [|call calls IH]; intros w Hrun.
  - cbn in Hrun. unfold ret in Hrun. by simplify_eq.
  - rewrite performAll_cons in Hrun.
    destruct (perform call w) as [[] w1|e] eqn:Hstep; [|done].
    rewrite last_omap_cons, (IH _ Hrun), (perform_written _ _ _ _ _ Hstep).
    by destruct (last _).
Qed.

Lemma verdict_ext w w' :
  _b (this w') = _b (this w) → _f (this w') = _f (this w) →
  _assignment (this w') = _assignment (this w) →
  outcome (satisfied w') = outcome (satisfied w) ∧
  outcome (getPossibleFixes w') = outcome (getPossibleFixes w).
Proof.
  intros Hb Hf Ha.
  rewrite (satisfied_eq w'), (getPossibleFixes_eq w'), satisfied_eq, getPossibleFixes_eq.
  rewrite Hb, Hf, Ha.
  destruct (_assignment (this w) !! _b (this w)) as [bValue|];
    destruct (_assignment (this w) !! _f (this w)) as [fValue|]; try done.
  destruct (isNegative fValue); [done|].
  by destruct (if isPositive fValue then _ else _).
Qed.

Lemma performAll_values calls w w' :
  performAll calls w = Returns tt w' →
  Forall (λ call, isValueNotification call = false) calls →
  _b (this w') = _b (this w) ∧ _f (this w') = _f (this w) ∧
  _assignment (this w') = _assignment (this w).
Proof.
  revert w. induction calls as [|call calls IH]; intros w Hrun Hcalls.
  - cbn in Hrun. unfold ret in Hrun. by simplify_eq.
  - rewrite performAll_cons in Hrun.
    destruct (perform call w) as [[] w1|e] eqn:Hstep; [|done].
    apply Forall_cons in Hcalls as [Hcall Hcalls].
    destruct (perform_caches _ _ _ Hstep) as (Hb & Hf & _ & Ha & _).
    destruct (IH _ Hrun Hcalls) as (-> & -> & ->).
    rewrite Hb, Hf, Ha. by destruct call.
Qed.

(** X6. Bound notifications, attaching and detaching never change what
    [satisfied()] and [getPossibleFixes()] yield: after any sequence of
    calls without a value notification both yield what they did before. *)
Theorem verdict_unchanged_without_values calls w w' :
  performAll calls w = Returns tt w' →
  Forall (λ call, isValueNotification call = false) calls →
  outcome (satisfied w') = outcome (satisfied w) ∧
  outcome (getPossibleFixes w') = outcome (getPossibleFixes w).
Proof.
  intros Hrun Hcalls.
  destruct (performAll_values _ _ _ Hrun Hcalls) as (Hb & Hf & Ha).
  by apply verdict_ext.
Qed.

Lemma appliedSplits_emitted b f auxVariable tableau call :
  refused b f tableau call = false →
  omap (λ tc : ITableau * TableauCall,
          match tc.2 with
          | applySplit s => Some s
          | _ => None
          end) (emitted b f auxVariable tableau call) =
  phaseAt b f auxVariable <$> option_list (collapses b f call).
Proof.
  destruct call as [t|t|v x|v x|v x]; cbn [refused emitted]; try done;
    destruct (collapses b f _) as [i|], tableau as [t|]; try done.
Qed.

Lemma performAll_applied b f auxVariable calls w w' :
  constructed b f auxVariable (this w) →
  performAll calls w = Returns tt w' →
  appliedSplits w' =
    appliedSplits w ++ (phaseAt b f auxVariable <$> omap (collapses b f) calls).
Proof.
  revert w. induction calls as [|call calls IH]; intros w Hc Hrun.
  - cbn in Hrun. unfold ret in Hrun. simplify_eq. by rewrite app_nil_r.
  - rewrite performAll_cons in Hrun.
    destruct (perform call w) as [[] w1|e] eqn:Hstep; [|done].
    destruct (perform_constructed _ _ _ _ _ _ Hc Hstep) as (Hc1 & _).
    pose proof (perform_spec _ _ _ call w Hc) as Hspec.
    destruct (refused b f (_tableau (this w)) call) eqn:Href; [congruence|].
    destruct Hspec as (w1' & Hstep' & Hcalls & _).
    rewrite Hstep in Hstep'. injection Hstep' as <-.
    rewrite (IH _ Hc1 Hrun). unfold appliedSplits at 1. rewrite Hcalls, omap_app.
    rewrite (appliedSplits_emitted _ _ _ _ _ Href), <- app_assoc. f_equal.
    cbn [omap list_omap]. by destruct (collapses b f call).
Qed.

(** X7. From construction on, the splits the tableau was asked to apply
    are, in order, the phases of the notifications that forced one; and the
    valid splits are the split applied last, or both phases when none was
    applied yet. *)
Theorem applied_splits_follow_collapses b f auxVariable tableau0 calls w :
  performAll calls (World_new b f auxVariable tableau0) = Returns tt w →
  appliedSplits w = phaseAt b f auxVariable <$> omap (collapses b f) calls ∧
  _validSplits (this w) =
    from_option (λ s, [s])
      [activePhase b f auxVariable; inactivePhase b f auxVariable]
      (last (appliedSplits w)).
Proof.
  intros Hrun.
  pose proof (performAll_applied b f auxVariable calls
                (World_new b f auxVariable tableau0) w
                (constructed_new b f auxVariable tableau0) Hrun) as Happlied.
  cbn in Happlied. rewrite Happlied. split; [done|].
  destruct (valid_after_fresh _ _ _ _ _ _ Hrun) as [_ ->].
  rewrite fmap_last. by destruct (last _).
Qed.

(** X8. With values cached for both b and f, a negative value cached for f
    stops both queries at the assertion on f. *)
Theorem negative_output_asserts w bValue fValue :
  cached w bValue fValue →
  isNegative fValue = true →
  satisfied w = Raises AssertionViolation ∧
  getPossibleFixes w = Raises AssertionViolation.
Proof.
  intros [Hb Hf] Hneg. by rewrite satisfied_eq, getPossibleFixes_eq, Hb, Hf, Hneg.
Qed.

(** X9. [getPossibleFixes()] on an assignment that satisfies the constraint
    stops at its first assertion: fixes are proposed for violations only. *)
Theorem fixes_refused_when_satisfied w w' :
  satisfied w = Returns true w' →
  getPossibleFixes w = Raises AssertionViolation.
Proof.
  rewrite satisfied_eq, getPossibleFixes_eq.
  destruct (_assignment (this w) !! _b (this w)) as [bValue|]; [|done].
  destruct (_assignment (this w) !! _f (this w)) as [fValue|]; [|done].
  destruct (isNegative fValue); [done|].
  by intros [= -> _].
Qed.

(** X10. The two queries never read a value that is not cached: when one
    of them fails, it is with PARTICIPATING_VARIABLES_ABSENT or by an
    assertion. *)
Theorem queries_fail_only_as_declared w e :
  satisfied w = Raises e ∨ getPossibleFixes w = Raises e →
  e = ReluplexError PARTICIPATING_VARIABLES_ABSENT ∨ e = AssertionViolation.
Proof.
  rewrite satisfied_eq, getPossibleFixes_eq.
  destruct (_assignment (this w) !! _b (this w)) as [bValue|];
    destruct (_assignment (this w) !! _f (this w)) as [fValue|];
    try (intros [[= <-]|[= <-]]; by left).
  destruct (isNegative fValue); [intros [[= <-]|[= <-]]; by right|].
  destruct (if isPositive fValue then _ else _); intros [?|?]; simplify_eq; by right.
Qed.

(** X11. Told a value for b and then one for f, a constraint over two
    different variables answers [satisfied()] from these two values alone,
    whatever it was told before. *)
Theorem satisfied_after_value_notifications w bValue fValue :
  _b (this w) ≠ _f (this w) →
  isNegative fValue = false →
  ∃ w', (notifyVariableValue (_b (this w)) bValue ;;
         notifyVariableValue (_f (this w)) fValue) w = Returns tt w' ∧
        cached w' bValue fValue ∧
        satisfied w' =
          Returns (if isPositive fValue then areEqual bValue fValue
                   else negb (isPositive bValue)) w'.
Proof.
  intros Hbf Hneg. unfold bind. rewrite !notifyVariableValue_eq.
  eexists. split; [reflexivity|].
  match goal with |- cached ?w1 _ _ ∧ _ => set (w' := w1) end.
  assert (cached w' bValue fValue) as Hc.
  { split; subst w'; cbn.
    - rewrite lookup_insert_ne by done. apply lookup_insert_eq.
    - apply lookup_insert_eq. }
  split; [exact Hc|]. destruct Hc as [Hb Hf].
  by rewrite satisfied_eq, Hb, Hf, Hneg.
Qed.

(** X12. A constraint built over one variable for both b and f is satisfied
    by every cached value that is not negative and that FloatUtils treats
    as a number. *)
Theorem same_variable_satisfied w x :
  _b (this w) = _f (this w) →
  _assignment (this w) !! _f (this w) = Some x →
  isNegative x = false →
  coherent x →
  satisfied w = Returns true w.
Proof.
  intros Hbf Hx Hneg Hco. rewrite satisfied_eq, Hbf, Hx, Hneg.
  destruct (isPositive x) eqn:Hpos; [|done].
  by destruct (Hco Hpos) as [-> _].
Qed.

Lemma phases_differ b f auxVariable :
  activePhase b f auxVariable ≠ inactivePhase b f auxVariable.
Proof. intros H. apply (f_equal split_bounds) in H. cbn in H. congruence. Qed.

(** X13. From construction on, [_splits] stays the active phase followed
    by the inactive one, which differ; the valid splits are always taken
    from [_splits] and never hold the same phase twice. *)
Theorem valid_splits_from_splits b f auxVariable tableau0 calls w :
  performAll calls (World_new b f auxVariable tableau0) = Returns tt w →
  _splits (this w) = [activePhase b f auxVariable; inactivePhase b f auxVariable] ∧
  activePhase b f auxVariable ≠ inactivePhase b f auxVariable ∧
  _validSplits (this w) ⊆ _splits (this w) ∧
  NoDup (_validSplits (this w)).
Proof.
  intros Hrun. destruct (valid_after_fresh _ _ _ _ _ _ Hrun) as [(_ & _ & Hs) Hv].
  pose proof (phases_differ b f auxVariable) as Hdiff.
  rewrite Hs, Hv. split; [done|]. split; [done|].
  destruct (last _) as [[|i]|]; cbn; split.
  - intros s ->%list_elem_of_singleton. by left.
  - apply NoDup_singleton.
  - intros s ->%list_elem_of_singleton. right. by left.
  - apply NoDup_singleton.
  - done.
  - apply NoDup_cons. split; [|apply NoDup_singleton].
    by intros ?%list_elem_of_singleton.
Qed.

(** X14. A split is only ever applied through [_tableau]: every
    [applySplit] call goes to a tableau named by a [registerAsWatcher] call
    of the sequence, or to the address the uninitialised [_tableau] held
    when the constructor returned. *)
Theorem splits_applied_to_registered_tableau b f auxVariable tableau0 calls w t s :
  performAll calls (World_new b f auxVariable tableau0) = Returns tt w →
  (t, applySplit s) ∈ tableauCalls w →
  tableau0 = Some t ∨ RegisterAsWatcher t ∈ calls.
Proof.
  intros Hrun Hin.
  destruct (performAll_registered b f auxVariable calls
              (World_new b f auxVariable tableau0) w
              (constructed_new b f auxVariable tableau0) Hrun) as [_ Hs].
  destruct (Hs t s Hin) as [Hlog|[Ht|Hreg]]; [|by left|by right].
  by apply elem_of_nil in Hlog.
Qed.

(** X15. With a tableau attached, no sequence of notifications fails, and
    the tableau stays attached. *)
Theorem notifications_return_when_attached b f auxVariable calls t w :
  constructed b f auxVariable (this w) →
  _tableau (this w) = Some t →
  Forall (λ call, isNotification call = true) calls →
  ∃ w', performAll calls w = Returns tt w' ∧ _tableau (this w') = Some t.
Proof.
  revert w. induction calls as [|call calls IH]; intros w Hc Ht Hcalls.
  - by exists w.
  - apply Forall_cons in Hcalls as [Hcall Hcalls].
    pose proof (perform_spec _ _ _ call w Hc) as Hspec.
    assert (refused b f (_tableau (this w)) call = false) as Href.
    { rewrite Ht. destruct call; try done; cbn; by rewrite andb_false_r. }
    rewrite Href in Hspec. destruct Hspec as (w1 & Hstep & _ & Ht1).
    destruct (perform_constructed _ _ _ _ _ _ Hc Hstep) as (Hc1 & _).
    rewrite performAll_cons, Hstep. apply IH; [done| |done].
    rewrite Ht1, Ht. by destruct call.
Qed.
End Further.

(** ** Scenarios *)

Section Scenarios.
Local Existing Instance FU0.

(** The sample worlds are what the calls that define them return. *)
Example told_returns bValue fValue :
  performAll [NotifyVariableValue 1 bValue; NotifyVariableValue 2 fValue] (World_new 1 2 3 indeterminate)
    = Returns tt (told bValue fValue).
Proof. reflexivity. Qed.

Example attached_returns :
  performAll [RegisterAsWatcher 9] (World_new 1 2 3 indeterminate) = Returns tt attached.
Proof. reflexivity. Qed.

(** The scenarios of the specification. *)
Example scenario_equal_values : outcome (satisfied (told 3 3)) = inl true.
Proof. reflexivity. Qed.

Example scenario_unequal_values :
  outcome (satisfied (told 3 5)) = inl false ∧
  outcome (getPossibleFixes (told 3 5)) = inl [mkFix 1 5; mkFix 2 3].
Proof. split; reflexivity. Qed.

Example scenario_inactive_regime : outcome (satisfied (told (-2) 0)) = inl true.
Proof. reflexivity. Qed.

Example scenario_zero_output :
  outcome (satisfied (told 4 0)) = inl false ∧
  outcome (getPossibleFixes (told 4 0)) = inl [mkFix 1 0; mkFix 2 4].
Proof. split; reflexivity. Qed.

Example scenario_lower_bound :
  performAll [RegisterAsWatcher 9; NotifyLowerBound 1 1] (World_new 1 2 3 indeterminate)
    = Returns tt stuckActive ∧
  _validSplits (this stuckActive) = [activePhase 1 2 3] ∧
  appliedSplits stuckActive = [activePhase 1 2 3].
Proof. repeat split. Qed.

Example scenario_no_value :
  outcome (satisfied (World_new 1 2 3 indeterminate))
    = inr (ReluplexError PARTICIPATING_VARIABLES_ABSENT).
Proof. reflexivity. Qed.

(** Once detached, [_tableau] is null and a notification that forces a
    phase stops at [ASSERT( _tableau )]. *)
Example lower_bound_without_tableau :
  _tableau (this detached) = None ∧
  notifyLowerBound 1 1 detached = Raises AssertionViolation.
Proof. split; reflexivity. Qed.

(** The tolerance of the sample FloatUtils does not relate infinity to
    itself: the coherence assumed of the cached values is a real condition. *)
Example infinity_not_coherent : ¬ coherent infinity.
Proof. intros H. by destruct (H eq_refl). Qed.

(** *** The theorems at concrete inputs *)

Lemma satisfied_decision_rule_witness :
  cached (told 3 5) 3 5 ∧ isNegative 5 = false ∧
  ∃ s : bool,
    satisfied (told 3 5) = Returns s (told 3 5) ∧
    (s = true ↔
       (isPositive 5 = true → areEqual 3 5 = true) ∧
       (isPositive 5 = false → isPositive 3 = false)).
Proof.
  assert (cached (told 3 5) 3 5) as Hc by (split; reflexivity).
  assert (isNegative 5 = false) as Hn by reflexivity.
  exact (conj Hc (conj Hn (satisfied_decision_rule (told 3 5) 3 5 Hc Hn))).
Defined.

Lemma fixes_follow_the_table_witness :
  satisfied (told 3 5) = Returns false (told 3 5) ∧
  ∃ v : Violation,
    hasShape v 3 5 = true ∧
    (∀ v', hasShape v' 3 5 = true → v' = v) ∧
    getPossibleFixes (told 3 5) = Returns (fixesOf v 1 2 3 5) (told 3 5).
Proof.
  split; [reflexivity|].
  apply (fixes_follow_the_table (told 3 5) 3 5);
    [split; reflexivity | reflexivity | reflexivity].
Defined.


Lemma missing_assignment_witness :
  _assignment (this stuckActive) !! _b (this stuckActive) = None ∧
  satisfied stuckActive = Raises (ReluplexError PARTICIPATING_VARIABLES_ABSENT) ∧
  getPossibleFixes stuckActive = Raises (ReluplexError PARTICIPATING_VARIABLES_ABSENT).
Proof.
  split; [reflexivity|].
  apply (missing_assignment stuckActive). left. reflexivity.
Defined.

Lemma collapse_applies_each_time_witness :
  _validSplits (this stuckActive) = [activePhase 1 2 3] ∧
  appliedSplits stuckActive = [activePhase 1 2 3] ∧
  ∃ w', perform (NotifyLowerBound 2 1) stuckActive = Returns tt w' ∧
        _validSplits (this w') = [phaseAt 1 2 3 0] ∧
        (_validSplits (this stuckActive) = [phaseAt 1 2 3 0] →
         _validSplits (this w') = _validSplits (this stuckActive)) ∧
        tableauCalls w' =
          tableauCalls stuckActive ++ [(9%N, applySplit (phaseAt 1 2 3 0))] ∧
        appliedSplits w' = appliedSplits stuckActive ++ [phaseAt 1 2 3 0] ∧
        (appliedSplits stuckActive = [] → appliedSplits w' = [phaseAt 1 2 3 0]).
Proof.
  split; [reflexivity|]. split; [reflexivity|].
  apply (collapse_applies_each_time 1 2 3 (NotifyLowerBound 2 1) 0 9 stuckActive).
  - repeat split.
  - reflexivity.
  - reflexivity.
Defined.

Lemma active_until_negative_upper_bound_witness :
  _validSplits
    (this (worldAfter
             ([RegisterAsWatcher 9] ++
              NotifyLowerBound 1 1 ::
              [NotifyUpperBound 2 5; NotifyLowerBound 2 0; NotifyVariableValue 1 3])
             (World_new 1 2 3 indeterminate)))
  = [activePhase 1 2 3].
Proof.
  apply (active_until_negative_upper_bound 1 2 3 indeterminate [RegisterAsWatcher 9] 1 1
           [NotifyUpperBound 2 5; NotifyLowerBound 2 0; NotifyVariableValue 1 3]).
  - left. reflexivity.
  - reflexivity.
  - repeat (constructor; [vm_compute; discriminate|]). constructor.
  - reflexivity.
Defined.

Lemma validSplits_never_grow_witness :
  _validSplits (this (World_new 1 2 3 indeterminate)) = [activePhase 1 2 3; inactivePhase 1 2 3] ∧
  _validSplits (this attached) ≠ [] ∧
  _validSplits (this stuckActive) ≠ [] ∧
  (_validSplits (this stuckActive) = _validSplits (this attached) ∨
   ∃ s, _validSplits (this stuckActive) = [s]) ∧
  length (_validSplits (this stuckActive)) ≤ length (_validSplits (this attached)).
Proof.
  apply (validSplits_never_grow 1 2 3 indeterminate [RegisterAsWatcher 9] (NotifyLowerBound 1 1)
           attached stuckActive).
  - reflexivity.
  - reflexivity.
Defined.

Lemma getCaseSplits_read_only_witness :
  _assignment (this (World_new 1 2 3 indeterminate)) = ∅ ∧
  getCaseSplits (World_new 1 2 3 indeterminate)
    = Returns (_validSplits (this (World_new 1 2 3 indeterminate))) (World_new 1 2 3 indeterminate) ∧
  (length (_validSplits (this (World_new 1 2 3 indeterminate))) = 1%nat ∨
   length (_validSplits (this (World_new 1 2 3 indeterminate))) = 2%nat) ∧
  repeatedly 3 getCaseSplits (World_new 1 2 3 indeterminate)
    = Returns (replicate 3 (_validSplits (this (World_new 1 2 3 indeterminate)))) (World_new 1 2 3 indeterminate).
Proof.
  split; [reflexivity|].
  apply (getCaseSplits_read_only 1 2 3 indeterminate [] (World_new 1 2 3 indeterminate) 3). reflexivity.
Defined.

Lemma getCaseSplits_order_witness :
  getCaseSplits attached
    = Returns [activePhase 1 2 3; inactivePhase 1 2 3] attached ∧
  getCaseSplits stuckActive = Returns [activePhase 1 2 3] stuckActive.
Proof.
  split.
  - apply (getCaseSplits_order 1 2 3 indeterminate [RegisterAsWatcher 9] attached); [reflexivity|].
    repeat constructor.
  - assert (performAll [RegisterAsWatcher 9; NotifyLowerBound 1 1] (World_new 1 2 3 indeterminate)
              = Returns tt stuckActive) as Hrun by reflexivity.
    apply (proj2 (getCaseSplits_order 1 2 3 indeterminate _ stuckActive Hrun) 0%nat).
    reflexivity.
Defined.

Lemma notifyVariableValue_stores_witness :
  ∃ w', notifyVariableValue 7 4 (told 3 5) = Returns tt w' ∧
        _assignment (this w') = <[7%N := 4%float]> (_assignment (this (told 3 5))) ∧
        _assignment (this w') !! _b (this w') = Some 3%float ∧
        _assignment (this w') !! _f (this w') = Some 5%float ∧
        _lowerBounds (this w') = _lowerBounds (this (told 3 5)) ∧
        _upperBounds (this w') = _upperBounds (this (told 3 5)) ∧
        _validSplits (this w') = _validSplits (this (told 3 5)) ∧
        _tableau (this w') = _tableau (this (told 3 5)) ∧
        tableauCalls w' = tableauCalls (told 3 5) ∧
        outcome (satisfied w') = outcome (satisfied (told 3 5)) ∧
        outcome (getPossibleFixes w') = outcome (getPossibleFixes (told 3 5)).
Proof.
  apply (notifyVariableValue_stores (told 3 5) 7 4); vm_compute; discriminate.
Defined.

(** *** Where the code departs from the specification *)


(** A second strictly positive lower bound, notified when the active phase
    is already the only valid split, applies the active phase to the tableau
    a second time. *)
Lemma second_notification_applies_again :
  _validSplits (this stuckActive) = [activePhase 1 2 3] ∧
  appliedSplits stuckActive = [activePhase 1 2 3] ∧
  ∃ w', notifyLowerBound 1 1 stuckActive = Returns tt w' ∧
        _validSplits (this w') = [activePhase 1 2 3] ∧
        appliedSplits w' = [activePhase 1 2 3; activePhase 1 2 3].
Proof. repeat split. eexists. repeat split. Qed.

(** A strictly negative upper bound on f, notified after a strictly positive
    lower bound on b, replaces the active phase by the inactive one. *)
Lemma negative_upper_bound_replaces_active :
  ∃ w, performAll [RegisterAsWatcher 9; NotifyLowerBound 1 1; NotifyUpperBound 2 (-1)]
         (World_new 1 2 3 indeterminate) = Returns tt w ∧
       _validSplits (this w) = [inactivePhase 1 2 3] ∧
       _validSplits (this w) ≠ [activePhase 1 2 3].
Proof. eexists. repeat split. vm_compute. discriminate. Qed.

(** A value notified for variable 7, which is neither b nor f, is cached. *)
Lemma value_of_other_variable_is_cached :
  _assignment (this (World_new 1 2 3 indeterminate)) !! 7%N = None ∧
  ∃ w', notifyVariableValue 7 5 (World_new 1 2 3 indeterminate) = Returns tt w' ∧
        _assignment (this w') !! 7%N = Some 5%float ∧
        w' ≠ World_new 1 2 3 indeterminate.
Proof.
  split; [reflexivity|]. eexists. repeat split.
  intros H. apply (f_equal (λ w, _assignment (this w) !! 7%N)) in H.
  vm_compute in H. discriminate.
Qed.
End Scenarios.

(** ** Further scenarios *)

Section FurtherScenarios.
Local Existing Instance FU0.

Lemma call_fails_exactly_when_refused_witness :
  (_tableau (this detached) = None ∨
   ∃ t, _tableau (this detached) = Some t ∧
        RegisterAsWatcher t ∈ [RegisterAsWatcher 9; UnregisterAsWatcher 9]) ∧
  ((∃ e, perform (NotifyLowerBound 1 1) detached = Raises e) ↔
   refused 1 2 (_tableau (this detached)) (NotifyLowerBound 1 1) = true) ∧
  (∀ e, perform (NotifyLowerBound 1 1) detached = Raises e →
        e = AssertionViolation).
Proof.
  apply (call_fails_exactly_when_refused 1 2 3 (RegisterAsWatcher 9)
           [UnregisterAsWatcher 9] (NotifyLowerBound 1 1)
           (World_new 1 2 3 indeterminate) attached detached).
  - repeat split.
  - reflexivity.
  - reflexivity.
  - reflexivity.
Defined.

Lemma fixes_name_b_then_f_witness :
  fix_variable <$> [mkFix 1 5; mkFix 2 3] = [1%N; 2%N] ∧
  Forall (λ fx : Fix, participatingVariable (fix_variable fx) (told 3 5)
                      = Returns true (told 3 5))
         [mkFix 1 5; mkFix 2 3].
Proof.
  apply (fixes_name_b_then_f (told 3 5) [mkFix 1 5; mkFix 2 3] (told 3 5)).
  reflexivity.
Defined.

Lemma caches_hold_last_notification_witness :
  cacheOf LowerBounds
    (this (worldAfter
             [NotifyLowerBound 1 0; NotifyUpperBound 1 7; NotifyLowerBound 5 4;
              NotifyLowerBound 1 (-2)] (World_new 1 2 3 indeterminate))) !! 1%N
  = Some (-2)%float.
Proof.
  apply (caches_hold_last_notification LowerBounds 1
           [NotifyLowerBound 1 0; NotifyUpperBound 1 7; NotifyLowerBound 5 4;
            NotifyLowerBound 1 (-2)] (World_new 1 2 3 indeterminate)).
  reflexivity.
Defined.

Lemma verdict_unchanged_without_values_witness :
  outcome (satisfied
             (worldAfter [RegisterAsWatcher 9; NotifyLowerBound 1 1; NotifyUpperBound 2 8]
                         (told 3 5)))
    = outcome (satisfied (told 3 5)) ∧
  outcome (getPossibleFixes
             (worldAfter [RegisterAsWatcher 9; NotifyLowerBound 1 1; NotifyUpperBound 2 8]
                         (told 3 5)))
    = outcome (getPossibleFixes (told 3 5)).
Proof.
  apply (verdict_unchanged_without_values
           [RegisterAsWatcher 9; NotifyLowerBound 1 1; NotifyUpperBound 2 8] (told 3 5)).
  - reflexivity.
  - repeat constructor.
Defined.

Lemma applied_splits_follow_collapses_witness :
  appliedSplits
    (worldAfter [RegisterAsWatcher 9; NotifyLowerBound 1 1; NotifyUpperBound 2 (-1);
                 NotifyVariableValue 1 3] (World_new 1 2 3 indeterminate))
    = [activePhase 1 2 3; inactivePhase 1 2 3] ∧
  _validSplits
    (this (worldAfter [RegisterAsWatcher 9; NotifyLowerBound 1 1; NotifyUpperBound 2 (-1);
                       NotifyVariableValue 1 3] (World_new 1 2 3 indeterminate)))
    = [inactivePhase 1 2 3].
Proof.
  pose proof (applied_splits_follow_collapses 1 2 3 indeterminate
                [RegisterAsWatcher 9; NotifyLowerBound 1 1; NotifyUpperBound 2 (-1);
                 NotifyVariableValue 1 3]
                (worldAfter [RegisterAsWatcher 9; NotifyLowerBound 1 1;
                             NotifyUpperBound 2 (-1); NotifyVariableValue 1 3]
                            (World_new 1 2 3 indeterminate))) as H.
  vm_compute in H |- *. apply H. reflexivity.
Defined.

Lemma negative_output_asserts_witness :
  satisfied (told 3 (-1)) = Raises AssertionViolation ∧
  getPossibleFixes (told 3 (-1)) = Raises AssertionViolation.
Proof.
  apply (negative_output_asserts (told 3 (-1)) 3 (-1)).
  - split; reflexivity.
  - reflexivity.
Defined.

Lemma fixes_refused_when_satisfied_witness :
  getPossibleFixes (told 3 3) = Raises AssertionViolation.
Proof.
  apply (fixes_refused_when_satisfied (told 3 3) (told 3 3)). reflexivity.
Defined.

Lemma queries_fail_only_as_declared_witness :
  ReluplexError PARTICIPATING_VARIABLES_ABSENT
    = ReluplexError PARTICIPATING_VARIABLES_ABSENT ∨
  ReluplexError PARTICIPATING_VARIABLES_ABSENT = AssertionViolation.
Proof.
  apply (queries_fail_only_as_declared (World_new 1 2 3 indeterminate)). left. reflexivity.
Defined.

Lemma satisfied_after_value_notifications_witness :
  ∃ w', (notifyVariableValue 1 4 ;; notifyVariableValue 2 4) (told 3 5) = Returns tt w' ∧
        cached w' 4 4 ∧
        satisfied w' = Returns true w'.
Proof.
  pose proof (satisfied_after_value_notifications (told 3 5) 4 4) as H.
  vm_compute in H |- *. apply H.
  - discriminate.
  - reflexivity.
Defined.

Lemma same_variable_satisfied_witness :
  satisfied (worldAfter [NotifyVariableValue 1 4] (World_new 1 1 3 indeterminate))
  = Returns true (worldAfter [NotifyVariableValue 1 4] (World_new 1 1 3 indeterminate)).
Proof.
  apply (same_variable_satisfied
           (worldAfter [NotifyVariableValue 1 4] (World_new 1 1 3 indeterminate)) 4).
  - reflexivity.
  - reflexivity.
  - reflexivity.
  - intros _. split; reflexivity.
Defined.

Lemma valid_splits_from_splits_witness :
  _splits (this stuckActive) = [activePhase 1 2 3; inactivePhase 1 2 3] ∧
  activePhase 1 2 3 ≠ inactivePhase 1 2 3 ∧
  _validSplits (this stuckActive) ⊆ _splits (this stuckActive) ∧
  NoDup (_validSplits (this stuckActive)).
Proof.
  apply (valid_splits_from_splits 1 2 3 indeterminate [RegisterAsWatcher 9; NotifyLowerBound 1 1]
           stuckActive).
  reflexivity.
Defined.

Lemma splits_applied_to_registered_tableau_witness :
  indeterminate = Some 9%N ∨
  RegisterAsWatcher 9 ∈ [RegisterAsWatcher 9; NotifyLowerBound 1 1].
Proof.
  apply (splits_applied_to_registered_tableau 1 2 3 indeterminate
           [RegisterAsWatcher 9; NotifyLowerBound 1 1] stuckActive 9 (activePhase 1 2 3)).
  - reflexivity.
  - vm_compute. do 2 apply list_elem_of_further. apply list_elem_of_here.
Defined.

Lemma notifications_return_when_attached_witness :
  ∃ w', performAll [NotifyLowerBound 1 1; NotifyUpperBound 2 (-1); NotifyVariableValue 2 0]
          attached = Returns tt w' ∧
        _tableau (this w') = Some 9%N.
Proof.
  apply (notifications_return_when_attached 1 2 3
           [NotifyLowerBound 1 1; NotifyUpperBound 2 (-1); NotifyVariableValue 2 0]
           9 attached).
  - repeat split.
  - reflexivity.
  - repeat constructor.
Defined.
End FurtherScenarios.
